(** * PyInMemStore: a shallow embedding of [pyinmemstore.py]

    The store is a Python object holding three [defaultdict]s and a lock.
    Every public method and every iteration of the background loop runs its
    whole body under that lock, so a history of the object is a sequence of
    atomic calls; each call is a function from the three dictionaries to the
    three dictionaries and an outcome (a returned value or a raised
    exception).  A call that raises keeps the mutations it made before the
    raise, as in Python.

    Modelling choices.
    - [time.time()] is an input of the call that reads it.
    - Python floats are exact rationals, extended with [float("inf")], the
      only non-finite value the program creates.  Rounding and the finite
      range of IEEE doubles are not modelled.
    - A [dict] is a [gmap]; [d.items()] and [d.keys()] enumerate it in the
      order of [map_to_list], not in Python's insertion order. *)

From Stdlib Require Import ZArith QArith Qround Lqa Lia.
From stdpp Require Import gmap strings list fin_maps.

Local Close Scope Q_scope.
Local Open Scope Z_scope.

(** ** Python values *)

(** A float, or the int [-1] that [expire] stores: a rational or [+inf]. *)
Inductive pyfloat : Type :=
  | Fin (q : Q)
  | PInf.

(** The exceptions the methods can raise. *)
Inductive exn : Type :=
  | KeyError (key : string)
  | OverflowError.

Inductive outcome (A : Type) : Type :=
  | Ok (a : A)
  | Raise (e : exn).
Arguments Ok {A} a.
Arguments Raise {A} e.

(** [x - time.time()] for a float [x]. *)
Definition float_sub (x : pyfloat) (t : Q) : pyfloat :=
  match x with
  | Fin q => Fin (q - t)%Q
  | PInf => PInf
  end.

(** [x < now], the comparison of the cleanup loop. *)
Definition float_ltb (x : pyfloat) (now : Q) : bool :=
  match x with
  | Fin q => Qnum q * QDen now <? Qnum now * QDen q
  | PInf => false
  end.

(** [int(x)]: truncation toward zero; [int(float("inf"))] raises. *)
Definition py_int (x : pyfloat) : outcome Z :=
  match x with
  | Fin q => Ok (Z.quot (Qnum q) (QDen q))
  | PInf => Raise OverflowError
  end.

(** ** The store *)

Record Store : Type := mkStore {
  key_value_pairs : gmap string string;
  expiry : gmap string pyfloat;
  creation_times : gmap string Q
}.

(** [__init__]: three empty dictionaries. *)
Definition init : Store := mkStore ∅ ∅ ∅.

(** ** Calls: state passing with exceptions *)

Definition M (A : Type) : Type := Store → Store * outcome A.

(** A computation that touches no dictionary: it returns or raises. *)
Definition lift {A} (o : outcome A) : M A := λ s, (s, o).

#[global] Instance M_ret : MRet M := λ A a s, (s, Ok a).
#[global] Instance M_bind : MBind M := λ A B f m s,
  match m s with
  | (s', Ok a) => f a s'
  | (s', Raise e) => (s', Raise e)
  end.

(** The state a call leaves, and what it returns or raises. *)
Definition state_of {A} (r : Store * outcome A) : Store := r.1.
Definition result_of {A} (r : Store * outcome A) : outcome A := r.2.

(** *** Dictionary primitives *)

Module Dict.

(** [key in self.key_value_pairs] *)
Definition kv_contains (key : string) : M bool :=
  λ s, (s, Ok (bool_decide (is_Some (key_value_pairs s !! key)))).

(** [self.key_value_pairs.get(key)]: no default is inserted. *)
Definition kv_get (key : string) : M (option string) :=
  λ s, (s, Ok (key_value_pairs s !! key)).

(** [self.key_value_pairs[key] = value] *)
Definition kv_setitem (key value : string) : M unit :=
  λ s, (mkStore (<[key:=value]> (key_value_pairs s)) (expiry s) (creation_times s),
        Ok tt).

(** [del self.key_value_pairs[key]]: [KeyError] on a missing key. *)
Definition kv_delitem (key : string) : M unit :=
  λ s, match key_value_pairs s !! key with
       | Some _ =>
           (mkStore (delete key (key_value_pairs s)) (expiry s) (creation_times s),
            Ok tt)
       | None => (s, Raise (KeyError key))
       end.

(** [list(self.key_value_pairs.keys())] *)
Definition kv_keys : M (list string) :=
  λ s, (s, Ok ((map_to_list (key_value_pairs s)).*1)).

(** [self.expiry[key]]: a [defaultdict] read; a missing key is first
    inserted with the default [float("inf")]. *)
Definition expiry_getitem (key : string) : M pyfloat :=
  λ s, match expiry s !! key with
       | Some x => (s, Ok x)
       | None =>
           (mkStore (key_value_pairs s) (<[key:=PInf]> (expiry s)) (creation_times s),
            Ok PInf)
       end.

(** [self.expiry[key] = x] *)
Definition expiry_setitem (key : string) (x : pyfloat) : M unit :=
  λ s, (mkStore (key_value_pairs s) (<[key:=x]> (expiry s)) (creation_times s),
        Ok tt).

(** [del self.expiry[key]]: [KeyError] on a missing key; the default of a
    [defaultdict] plays no part in [del]. *)
Definition expiry_delitem (key : string) : M unit :=
  λ s, match expiry s !! key with
       | Some _ =>
           (mkStore (key_value_pairs s) (delete key (expiry s)) (creation_times s),
            Ok tt)
       | None => (s, Raise (KeyError key))
       end.

(** [self.expiry.items()] *)
Definition expiry_items : M (list (string * pyfloat)) :=
  λ s, (s, Ok (map_to_list (expiry s))).

(** [self.creation_times[key] = t] *)
Definition ct_setitem (key : string) (t : Q) : M unit :=
  λ s, (mkStore (key_value_pairs s) (expiry s) (<[key:=t]> (creation_times s)),
        Ok tt).

(** [del self.creation_times[key]] *)
Definition ct_delitem (key : string) : M unit :=
  λ s, match creation_times s !! key with
       | Some _ =>
           (mkStore (key_value_pairs s) (expiry s) (delete key (creation_times s)),
            Ok tt)
       | None => (s, Raise (KeyError key))
       end.

End Dict.

(** [for key in keys: body(key)] *)
Fixpoint for_each (keys : list string) (body : string → M unit) : M unit :=
  match keys with
  | [] => mret tt
  | key :: rest => body key;; for_each rest body
  end.

(** *** The methods of [PyInMemStore] *)

Module PyInMemStore.

(** [set(key, value)]; [now] is the value of [time.time()]. *)
Definition set (key value : string) (now : Q) : M unit :=
  Dict.kv_setitem key value;;
  Dict.ct_setitem key now.

(** [get(key)] *)
Definition get (key : string) : M (option string) :=
  Dict.kv_get key.

(** [delete(key)] *)
Definition delete (key : string) : M unit :=
  present ← Dict.kv_contains key;
  if (present : bool) then
    (Dict.kv_delitem key;;
     Dict.expiry_delitem key;;
     Dict.ct_delitem key)
  else mret tt.

(** [expire(key, seconds)] *)
Definition expire (key : string) (seconds : Z) (now : Q) : M unit :=
  present ← Dict.kv_contains key;
  if (present : bool) then
    if 0 <? seconds
    then Dict.expiry_setitem key (Fin (now + inject_Z seconds)%Q)
    else Dict.expiry_setitem key (Fin (inject_Z (-1)))
  else mret tt.

(** [ttl(key)] *)
Definition ttl (key : string) (now : Q) : M Z :=
  present ← Dict.kv_contains key;
  if (present : bool) then
    deadline ← Dict.expiry_getitem key;
    let remaining_time := float_sub deadline now in
    whole ← lift (py_int remaining_time);
    mret (Z.max 0 whole)
  else mret (-2).

(** The three [del] statements of the cleanup loop. *)
Definition del_entry (key : string) : M unit :=
  Dict.kv_delitem key;;
  Dict.expiry_delitem key;;
  Dict.ct_delitem key.

(** One iteration of the [while True] loop of [_cleanup_expired_keys],
    without the [time.sleep(1)]: the list comprehension, then the [for]. *)
Definition cleanup_tick (now : Q) : M unit :=
  items ← Dict.expiry_items;
  let expired_keys := (filter (λ kv, float_ltb kv.2 now = true) items).*1 in
  for_each expired_keys del_entry.

(** [get_all_keys()], the [list_keys] of the specification. *)
Definition get_all_keys : M (list string) :=
  Dict.kv_keys.

End PyInMemStore.

(** ** Histories *)

(** One atomic step of the object's history: a public call, or one
    iteration of the cleanup loop.  Calls that read the clock carry the
    value they read. *)
Inductive call : Type :=
  | CSet (key value : string) (now : Q)
  | CGet (key : string)
  | CDelete (key : string)
  | CExpire (key : string) (seconds : Z) (now : Q)
  | CTtl (key : string) (now : Q)
  | CGetAllKeys
  | CTick (now : Q).

(** The exception a computation ends with, if any. *)
Definition raised {A} (r : Store * outcome A) : option exn :=
  match r.2 with
  | Ok _ => None
  | Raise e => Some e
  end.

(** The store after a step, whether it returned or raised. *)
Definition exec (c : call) (s : Store) : Store :=
  match c with
  | CSet key value now => state_of (PyInMemStore.set key value now s)
  | CGet key => state_of (PyInMemStore.get key s)
  | CDelete key => state_of (PyInMemStore.delete key s)
  | CExpire key seconds now => state_of (PyInMemStore.expire key seconds now s)
  | CTtl key now => state_of (PyInMemStore.ttl key now s)
  | CGetAllKeys => state_of (PyInMemStore.get_all_keys s)
  | CTick now => state_of (PyInMemStore.cleanup_tick now s)
  end.

(** The exception a step raises, if any. *)
Definition fault (c : call) (s : Store) : option exn :=
  match c with
  | CSet key value now => raised (PyInMemStore.set key value now s)
  | CGet key => raised (PyInMemStore.get key s)
  | CDelete key => raised (PyInMemStore.delete key s)
  | CExpire key seconds now => raised (PyInMemStore.expire key seconds now s)
  | CTtl key now => raised (PyInMemStore.ttl key now s)
  | CGetAllKeys => raised (PyInMemStore.get_all_keys s)
  | CTick now => raised (PyInMemStore.cleanup_tick now s)
  end.

(** A history played from a store, oldest step first. *)
Definition run (tr : list call) (s : Store) : Store :=
  foldl (λ s c, exec c s) s tr.

(** The stores an object can be in. *)
Inductive reachable : Store → Prop :=
  | reach_init : reachable init
  | reach_step c s : reachable s → reachable (exec c s).

(** Every key with a deadline has a value, every key with a value has a
    creation time. *)
Definition wf (s : Store) : Prop :=
  dom (expiry s) ⊆ dom (key_value_pairs s) ∧
  dom (key_value_pairs s) ⊆ dom (creation_times s).

(** The clock reads a time at or after the epoch. *)
Definition clock (now : Q) : Prop := (0 <= now)%Q.

(** The recorded deadline of [key] is strictly before [now]. *)
Definition expired_at (now : Q) (s : Store) (key : string) : Prop :=
  ∃ e, expiry s !! key = Some (Fin e) ∧ (e < now)%Q.

(** [key] has no finite deadline: no entry in [expiry], or the default. *)
Definition no_deadline (s : Store) (key : string) : Prop :=
  expiry s !! key = None ∨ expiry s !! key = Some PInf.

(** The keys the list comprehension of the cleanup loop collects. *)
Definition expired_keys (now : Q) (s : Store) : list string :=
  (filter (λ kv, float_ltb kv.2 now = true) (map_to_list (expiry s))).*1.

Definition is_expire_of (key : string) (c : call) : bool :=
  match c with
  | CExpire key' _ _ => bool_decide (key' = key)
  | _ => false
  end.

Definition is_delete_of (key : string) (c : call) : bool :=
  match c with
  | CDelete key' => bool_decide (key' = key)
  | _ => false
  end.

Definition is_set_of (key : string) (c : call) : bool :=
  match c with
  | CSet key' _ _ => bool_decide (key' = key)
  | _ => false
  end.


(** [_cleanup_expired_keys]: the [while True] loop, for as many
    iterations as there are clock readings; an exception ends the loop, as
    it ends the thread that runs it. *)
Fixpoint _cleanup_expired_keys (clocks : list Q) : M unit :=
  match clocks with
  | [] => mret tt
  | now :: rest => PyInMemStore.cleanup_tick now;; _cleanup_expired_keys rest
  end.

(** *** Sample histories *)

(** A key that was set and never given a deadline. *)
Definition fresh_store : Store := run [CSet "k" "v" 100%Q] init.

(** Two keys; ["a"] has the deadline 101, ["b"] has none. *)
Definition two_keys : Store :=
  run [CSet "a" "1" 100%Q; CSet "b" "2" 100%Q; CExpire "a" 1 100%Q] init.

(** ** The equations of the methods *)

Section Equations.
Implicit Types (s : Store) (key value : string) (now : Q) (seconds : Z).

Lemma set_eq key value now s :
  PyInMemStore.set key value now s =
    (mkStore (<[key:=value]> (key_value_pairs s)) (expiry s)
             (<[key:=now]> (creation_times s)), Ok tt).
Proof. reflexivity. Qed.

Lemma get_eq key s : PyInMemStore.get key s = (s, Ok (key_value_pairs s !! key)).
Proof. reflexivity. Qed.

Lemma get_all_keys_eq s :
  PyInMemStore.get_all_keys s = (s, Ok ((map_to_list (key_value_pairs s)).*1)).
Proof. reflexivity. Qed.

Lemma kv_contains_true key s :
  is_Some (key_value_pairs s !! key) →
  bool_decide (is_Some (key_value_pairs s !! key)) = true.
Proof. intros H. by apply bool_decide_eq_true. Qed.

Lemma kv_contains_false key s :
  key_value_pairs s !! key = None →
  bool_decide (is_Some (key_value_pairs s !! key)) = false.
Proof.
  intros H. apply bool_decide_eq_false. rewrite H. by intros [? ?].
Qed.

Lemma del_entry_ok key s :
  is_Some (key_value_pairs s !! key) →
  is_Some (expiry s !! key) →
  is_Some (creation_times s !! key) →
  PyInMemStore.del_entry key s =
    (mkStore (delete key (key_value_pairs s)) (delete key (expiry s))
             (delete key (creation_times s)), Ok tt).
Proof.
  intros [v Hv] [e He] [t Ht].
  unfold PyInMemStore.del_entry, mbind, M_bind, Dict.kv_delitem, Dict.expiry_delitem,
    Dict.ct_delitem; simpl.
  rewrite Hv; simpl. rewrite He; simpl. by rewrite Ht.
Qed.

Lemma delete_absent key s :
  key_value_pairs s !! key = None → PyInMemStore.delete key s = (s, Ok tt).
Proof.
  intros H. unfold PyInMemStore.delete, mbind, M_bind, Dict.kv_contains.
  by rewrite kv_contains_false.
Qed.

Lemma delete_present key s :
  is_Some (key_value_pairs s !! key) → PyInMemStore.delete key s = PyInMemStore.del_entry key s.
Proof.
  intros H. unfold PyInMemStore.delete, mbind, M_bind, Dict.kv_contains.
  by rewrite kv_contains_true.
Qed.

Lemma delete_no_deadline key s :
  is_Some (key_value_pairs s !! key) →
  expiry s !! key = None →
  PyInMemStore.delete key s =
    (mkStore (delete key (key_value_pairs s)) (expiry s) (creation_times s),
     Raise (KeyError key)).
Proof.
  intros Hp He. rewrite delete_present by done. destruct Hp as [v Hv].
  unfold PyInMemStore.del_entry, mbind, M_bind, Dict.kv_delitem, Dict.expiry_delitem; simpl.
  rewrite Hv; simpl. by rewrite He.
Qed.

Lemma expire_absent key seconds now s :
  key_value_pairs s !! key = None → PyInMemStore.expire key seconds now s = (s, Ok tt).
Proof.
  intros H. unfold PyInMemStore.expire, mbind, M_bind, Dict.kv_contains.
  by rewrite kv_contains_false.
Qed.

Lemma expire_positive key seconds now s :
  is_Some (key_value_pairs s !! key) →
  0 < seconds →
  PyInMemStore.expire key seconds now s =
    (mkStore (key_value_pairs s)
             (<[key:=Fin (now + inject_Z seconds)%Q]> (expiry s))
             (creation_times s), Ok tt).
Proof.
  intros H Hs. unfold PyInMemStore.expire, mbind, M_bind, Dict.kv_contains.
  rewrite kv_contains_true by done.
  by rewrite (proj2 (Z.ltb_lt 0 seconds) Hs).
Qed.

Lemma expire_nonpositive key seconds now s :
  is_Some (key_value_pairs s !! key) →
  seconds ≤ 0 →
  PyInMemStore.expire key seconds now s =
    (mkStore (key_value_pairs s)
             (<[key:=Fin (inject_Z (-1))]> (expiry s))
             (creation_times s), Ok tt).
Proof.
  intros H Hs. unfold PyInMemStore.expire, mbind, M_bind, Dict.kv_contains.
  rewrite kv_contains_true by done.
  by rewrite (proj2 (Z.ltb_ge 0 seconds) Hs).
Qed.

Lemma ttl_absent key now s :
  key_value_pairs s !! key = None → PyInMemStore.ttl key now s = (s, Ok (-2)).
Proof.
  intros H. unfold PyInMemStore.ttl, mbind, M_bind, Dict.kv_contains.
  by rewrite kv_contains_false.
Qed.

Lemma ttl_finite key now s e :
  is_Some (key_value_pairs s !! key) →
  expiry s !! key = Some (Fin e) →
  PyInMemStore.ttl key now s =
    (s, Ok (Z.max 0 (Z.quot (Qnum (e - now)%Q) (QDen (e - now)%Q)))).
Proof.
  intros H He. unfold PyInMemStore.ttl, mbind, M_bind, Dict.kv_contains.
  rewrite kv_contains_true by done.
  unfold Dict.expiry_getitem. by rewrite He.
Qed.

Lemma ttl_default key now s :
  is_Some (key_value_pairs s !! key) →
  expiry s !! key = None →
  PyInMemStore.ttl key now s =
    (mkStore (key_value_pairs s) (<[key:=PInf]> (expiry s)) (creation_times s),
     Raise OverflowError).
Proof.
  intros H He. unfold PyInMemStore.ttl, mbind, M_bind, Dict.kv_contains.
  rewrite kv_contains_true by done.
  unfold Dict.expiry_getitem. by rewrite He.
Qed.

Lemma ttl_infinite key now s :
  is_Some (key_value_pairs s !! key) →
  expiry s !! key = Some PInf →
  PyInMemStore.ttl key now s = (s, Raise OverflowError).
Proof.
  intros H He. unfold PyInMemStore.ttl, mbind, M_bind, Dict.kv_contains.
  rewrite kv_contains_true by done.
  unfold Dict.expiry_getitem. by rewrite He.
Qed.

End Equations.

(** ** The cleanup loop *)

Section Cleanup.
Implicit Types (s : Store) (key : string) (now : Q) (keys : list string).

Lemma float_ltb_lt x now :
  float_ltb x now = true ↔ ∃ e, x = Fin e ∧ (e < now)%Q.
Proof.
  destruct x as [q|]; simpl.
  - rewrite Z.ltb_lt. split.
    + intros H. by exists q.
    + intros (e & [= ->] & H). exact H.
  - split; [done | by intros (e & ? & _)].
Qed.

Lemma expired_at_dec now s key : {expired_at now s key} + {¬ expired_at now s key}.
Proof.
  unfold expired_at. destruct (expiry s !! key) as [x|] eqn:Hx.
  - destruct (float_ltb x now) eqn:Hlt.
    + left. apply float_ltb_lt in Hlt as (e & -> & Hlt). eauto.
    + right. intros (e & [= ->] & He).
      assert (float_ltb (Fin e) now = true) by (apply float_ltb_lt; eauto).
      congruence.
  - right. by intros (e & ? & _).
Qed.

Lemma cleanup_tick_eq now s :
  PyInMemStore.cleanup_tick now s =
    for_each (expired_keys now s) PyInMemStore.del_entry s.
Proof. reflexivity. Qed.

Lemma elem_of_expired_keys now s key :
  key ∈ expired_keys now s ↔ expired_at now s key.
Proof.
  unfold expired_keys, expired_at. rewrite list_elem_of_fmap. split.
  - intros ([k x] & -> & Hin). apply list_elem_of_filter in Hin as [Hlt Hin].
    apply elem_of_map_to_list in Hin. simpl in *.
    apply float_ltb_lt in Hlt as (e & -> & Hlt). eauto.
  - intros (e & He & Hlt). exists (key, Fin e). split; [done|].
    apply list_elem_of_filter. split.
    + apply float_ltb_lt. eauto.
    + by apply elem_of_map_to_list.
Qed.

Lemma NoDup_expired_keys now s : NoDup (expired_keys now s).
Proof.
  unfold expired_keys.
  eapply sublist_NoDup; [apply (NoDup_fst_map_to_list (expiry s))|].
  apply fmap_sublist, sublist_filter.
Qed.

Lemma for_each_cons key keys (body : string → M unit) s :
  for_each (key :: keys) body s =
    match body key s with
    | (s', Ok _) => for_each keys body s'
    | (s', Raise e) => (s', Raise e)
    end.
Proof. reflexivity. Qed.

(** Deleting a duplicate-free list of keys that all have their three
    entries: the loop runs to its end, the listed keys lose their three
    entries, and every other key keeps its own. *)
Lemma for_each_del_entry keys : ∀ s,
  NoDup keys →
  (∀ key, key ∈ keys →
     is_Some (key_value_pairs s !! key) ∧ is_Some (expiry s !! key) ∧
     is_Some (creation_times s !! key)) →
  ∃ s', for_each keys PyInMemStore.del_entry s = (s', Ok tt) ∧
    (∀ key, key ∈ keys →
       key_value_pairs s' !! key = None ∧ expiry s' !! key = None ∧
       creation_times s' !! key = None) ∧
    (∀ key, key ∉ keys →
       key_value_pairs s' !! key = key_value_pairs s !! key ∧
       expiry s' !! key = expiry s !! key ∧
       creation_times s' !! key = creation_times s !! key).
Proof.
  induction keys as [|k keys IH]; intros s Hnd Hall.
  - exists s. split; [done|]. split; [|done].
    intros key Hin. by apply elem_of_nil in Hin.
  - apply NoDup_cons in Hnd as [Hk Hnd].
    destruct (Hall k) as (Hv & He & Ht); [apply list_elem_of_here|].
    rewrite for_each_cons, del_entry_ok by done.
    destruct (IH (mkStore (delete k (key_value_pairs s)) (delete k (expiry s))
                          (delete k (creation_times s))))
      as (s' & Hrun & Hin & Hout); [exact Hnd| |].
    { intros key Hkey. cbn [key_value_pairs expiry creation_times].
      assert (k ≠ key) by (intros ->; contradiction).
      rewrite !lookup_delete_ne by done.
      apply Hall. by apply list_elem_of_further. }
    exists s'. split; [exact Hrun|].
    cbn [key_value_pairs expiry creation_times] in Hout. split.
    + intros key [->|Hkey]%elem_of_cons; [|by apply Hin].
      destruct (Hout k Hk) as (-> & -> & ->).
      by rewrite !lookup_delete_eq.
    + intros key [Hne Hkey]%not_elem_of_cons.
      destruct (Hout key Hkey) as (-> & -> & ->).
      by rewrite !lookup_delete_ne.
Qed.

(** In a well-formed store an iteration of the loop returns, removes the
    three entries of every key whose deadline has passed and changes
    nothing else. *)
Lemma cleanup_tick_wf now s :
  wf s →
  ∃ s', PyInMemStore.cleanup_tick now s = (s', Ok tt) ∧
    (∀ key, expired_at now s key →
       key_value_pairs s' !! key = None ∧ expiry s' !! key = None ∧
       creation_times s' !! key = None) ∧
    (∀ key, ¬ expired_at now s key →
       key_value_pairs s' !! key = key_value_pairs s !! key ∧
       expiry s' !! key = expiry s !! key ∧
       creation_times s' !! key = creation_times s !! key).
Proof.
  intros [Hev Hvt]. rewrite cleanup_tick_eq.
  destruct (for_each_del_entry (expired_keys now s) s) as (s' & Hrun & Hin & Hout).
  - apply NoDup_expired_keys.
  - intros key (e & He & _)%elem_of_expired_keys.
    assert (key ∈ dom (expiry s)) as Hd by (apply elem_of_dom; eauto).
    split_and!; apply elem_of_dom; [set_solver | done | set_solver].
  - exists s'. split; [exact Hrun|]. split.
    + intros key Hkey. by apply Hin, elem_of_expired_keys.
    + intros key Hkey. apply Hout. by rewrite elem_of_expired_keys.
Qed.

End Cleanup.

(** ** Reachable stores are well formed *)

#[local] Set Warnings "-clear-no-such-hyp".

Section Invariant.
Implicit Types (s : Store) (key : string) (c : call).

Lemma wf_init : wf init.
Proof. split; simpl; set_solver. Qed.

Lemma wf_del_entry key s : wf s → wf (state_of (PyInMemStore.del_entry key s)).
Proof.
  intros [Hev Hvt].
  unfold PyInMemStore.del_entry, mbind, M_bind, Dict.kv_delitem,
    Dict.expiry_delitem, Dict.ct_delitem, state_of; simpl.
  destruct (key_value_pairs s !! key) eqn:Hv; simpl; [|done].
  destruct (expiry s !! key) eqn:He; simpl.
  - destruct (creation_times s !! key) eqn:Ht; simpl;
      split; simpl; rewrite ?dom_delete_L; set_solver.
  - apply not_elem_of_dom in He.
    split; simpl; rewrite ?dom_delete_L; set_solver.
Qed.

Lemma wf_exec c s : wf s → wf (exec c s).
Proof.
  intros Hwf. destruct c as [key value now|key|key|key seconds now|key now| |now];
    cbn [exec].
  - destruct Hwf as [Hev Hvt]. rewrite set_eq.
    split; simpl; rewrite ?dom_insert_L; set_solver.
  - done.
  - destruct (key_value_pairs s !! key) eqn:Hv.
    + rewrite delete_present by eauto. by apply wf_del_entry.
    + by rewrite delete_absent.
  - destruct (key_value_pairs s !! key) eqn:Hv.
    + assert (key ∈ dom (key_value_pairs s)) by (apply elem_of_dom; eauto).
      destruct Hwf as [Hev Hvt].
      destruct (Z_lt_le_dec 0 seconds).
      * rewrite expire_positive by eauto.
        split; simpl; rewrite ?dom_insert_L; set_solver.
      * rewrite expire_nonpositive by eauto.
        split; simpl; rewrite ?dom_insert_L; set_solver.
    + by rewrite expire_absent.
  - destruct (key_value_pairs s !! key) eqn:Hv.
    + assert (key ∈ dom (key_value_pairs s)) by (apply elem_of_dom; eauto).
      destruct (expiry s !! key) as [[e|]|] eqn:He.
      * by erewrite ttl_finite by eauto.
      * by rewrite ttl_infinite by eauto.
      * rewrite ttl_default by eauto. destruct Hwf as [Hev Hvt].
        split; simpl; rewrite ?dom_insert_L; set_solver.
    + by rewrite ttl_absent.
  - done.
  - destruct (cleanup_tick_wf now s Hwf) as (s' & -> & Hin & Hout).
    destruct Hwf as [Hev Hvt]. unfold state_of; simpl.
    split; intros key [x Hx]%elem_of_dom; apply elem_of_dom.
    + destruct (expired_at_dec now s key) as [Hexp|Hexp].
      * destruct (Hin key Hexp) as (_ & Hnone & _). congruence.
      * destruct (Hout key Hexp) as (-> & Heq & _).
        apply elem_of_dom, Hev, elem_of_dom. rewrite <- Heq. eauto.
    + destruct (expired_at_dec now s key) as [Hexp|Hexp].
      * destruct (Hin key Hexp) as (Hnone & _ & _). congruence.
      * destruct (Hout key Hexp) as (Heq & _ & ->).
        apply elem_of_dom, Hvt, elem_of_dom. rewrite <- Heq. eauto.
Qed.

Lemma reachable_wf s : reachable s → wf s.
Proof. induction 1; [apply wf_init | by apply wf_exec]. Qed.

Lemma reachable_run tr s : reachable s → reachable (run tr s).
Proof.
  revert s. induction tr as [|c tr IH]; intros s Hs; [done|].
  simpl. apply IH. by constructor.
Qed.

End Invariant.

(** ** Whole seconds *)

Section Truncation.

Lemma quot_nonpos (a b : Z) : a ≤ 0 → 0 < b → Z.quot a b ≤ 0.
Proof.
  intros Ha Hb. replace a with (- - a) by lia.
  rewrite Z.quot_opp_l by lia.
  pose proof (Z.quot_pos (- a) b). lia.
Qed.

(** [int(x)] of a float that is not positive is not positive. *)
Lemma trunc_nonpos (q : Q) : (q <= 0)%Q → Z.quot (Qnum q) (QDen q) ≤ 0.
Proof.
  destruct q as [n d]. unfold Qle. simpl. intros H.
  apply quot_nonpos; lia.
Qed.

(** [int(x)] of a float that is not negative is not negative. *)
Lemma trunc_nonneg (q : Q) : (0 <= q)%Q → 0 ≤ Z.quot (Qnum q) (QDen q).
Proof.
  destruct q as [n d]. unfold Qle. simpl. intros H.
  apply Z.quot_pos; lia.
Qed.

Lemma minus_nonpos (e now : Q) : (e <= now)%Q → (e - now <= 0)%Q.
Proof.
  destruct e as [en ed], now as [nn nd]. unfold Qle. simpl. lia.
Qed.

Lemma past_sentinel (now : Q) : clock now → (inject_Z (-1) < now)%Q.
Proof.
  unfold clock. intros H. eapply Qlt_le_trans; [|exact H]. reflexivity.
Qed.

End Truncation.

(** ** What a step leaves alone *)

Section Frames.
Implicit Types (s : Store) (key k : string) (now : Q) (seconds : Z) (c : call).

(** The three [del] statements touch no other key, whether they run to
    the end or stop at a [KeyError]. *)
Lemma del_entry_other k s key :
  key ≠ k →
  key_value_pairs (state_of (PyInMemStore.del_entry k s)) !! key
    = key_value_pairs s !! key ∧
  expiry (state_of (PyInMemStore.del_entry k s)) !! key = expiry s !! key ∧
  creation_times (state_of (PyInMemStore.del_entry k s)) !! key
    = creation_times s !! key.
Proof.
  intros Hne.
  unfold PyInMemStore.del_entry, mbind, M_bind, Dict.kv_delitem,
    Dict.expiry_delitem, Dict.ct_delitem, state_of.
  destruct (key_value_pairs s !! k); cbn; [|done].
  destruct (expiry s !! k); cbn.
  - destruct (creation_times s !! k); cbn;
      by rewrite ?lookup_delete_ne.
  - by rewrite ?lookup_delete_ne.
Qed.

Lemma del_entry_expiry k s key :
  expiry (state_of (PyInMemStore.del_entry k s)) !! key = expiry s !! key ∨
  expiry (state_of (PyInMemStore.del_entry k s)) !! key = None.
Proof.
  destruct (decide (key = k)) as [->|Hne].
  - unfold PyInMemStore.del_entry, mbind, M_bind, Dict.kv_delitem,
      Dict.expiry_delitem, Dict.ct_delitem, state_of.
    destruct (key_value_pairs s !! k); cbn; [|by left].
    destruct (expiry s !! k) eqn:He; cbn.
    + destruct (creation_times s !! k); cbn;
        right; apply lookup_delete_eq.
    + by left.
  - left. by apply del_entry_other.
Qed.

Lemma delete_other k s key :
  key ≠ k →
  key_value_pairs (state_of (PyInMemStore.delete k s)) !! key
    = key_value_pairs s !! key.
Proof.
  intros Hne. destruct (key_value_pairs s !! k) eqn:Hk.
  - rewrite delete_present by eauto. by apply del_entry_other.
  - by rewrite delete_absent.
Qed.

Lemma delete_expiry k s key :
  expiry (state_of (PyInMemStore.delete k s)) !! key = expiry s !! key ∨
  expiry (state_of (PyInMemStore.delete k s)) !! key = None.
Proof.
  destruct (key_value_pairs s !! k) eqn:Hk.
  - rewrite delete_present by eauto. apply del_entry_expiry.
  - rewrite delete_absent by done. by left.
Qed.

Lemma expire_values k seconds now s :
  key_value_pairs (state_of (PyInMemStore.expire k seconds now s))
    = key_value_pairs s.
Proof.
  destruct (key_value_pairs s !! k) eqn:Hk.
  - destruct (Z_lt_le_dec 0 seconds).
    + by rewrite expire_positive by eauto.
    + by rewrite expire_nonpositive by eauto.
  - by rewrite expire_absent.
Qed.

Lemma expire_other k seconds now s key :
  key ≠ k →
  expiry (state_of (PyInMemStore.expire k seconds now s)) !! key
    = expiry s !! key.
Proof.
  intros Hne. destruct (key_value_pairs s !! k) eqn:Hk.
  - destruct (Z_lt_le_dec 0 seconds).
    + rewrite expire_positive by eauto. by apply lookup_insert_ne.
    + rewrite expire_nonpositive by eauto. by apply lookup_insert_ne.
  - by rewrite expire_absent.
Qed.

Lemma ttl_values k now s :
  key_value_pairs (state_of (PyInMemStore.ttl k now s)) = key_value_pairs s.
Proof.
  destruct (key_value_pairs s !! k) eqn:Hk.
  - destruct (expiry s !! k) as [[e|]|] eqn:He.
    + by erewrite ttl_finite by eauto.
    + by rewrite ttl_infinite by eauto.
    + by rewrite ttl_default by eauto.
  - by rewrite ttl_absent.
Qed.

(** [ttl] leaves every deadline as it is, except that it records the
    default for a key that had none. *)
Lemma ttl_expiry k now s key :
  expiry (state_of (PyInMemStore.ttl k now s)) !! key = expiry s !! key ∨
  (expiry s !! key = None ∧
   expiry (state_of (PyInMemStore.ttl k now s)) !! key = Some PInf).
Proof.
  destruct (key_value_pairs s !! k) eqn:Hk.
  - destruct (expiry s !! k) as [[e|]|] eqn:He.
    + left. by erewrite ttl_finite by eauto.
    + left. by rewrite ttl_infinite by eauto.
    + rewrite ttl_default by eauto. unfold state_of; cbn.
      destruct (decide (key = k)) as [->|Hne].
      * right. split; [done|]. apply lookup_insert_eq.
      * left. by apply lookup_insert_ne.
  - left. by rewrite ttl_absent.
Qed.

Lemma no_deadline_not_expired now s key :
  no_deadline s key → ¬ expired_at now s key.
Proof. intros [H|H] (e & He & _); congruence. Qed.

(** A step that is not [expire(key, _)] gives [key] no finite deadline. *)
Lemma exec_no_deadline c s key :
  wf s → is_expire_of key c = false →
  no_deadline s key → no_deadline (exec c s) key.
Proof.
  intros Hwf Hc Hnd.
  destruct c as [k value now|k|k|k seconds now|k now| |now]; cbn [exec].
  - done.
  - done.
  - destruct (delete_expiry k s key) as [Heq|Heq];
      unfold no_deadline; rewrite Heq; [done | by left].
  - cbn in Hc. apply bool_decide_eq_false in Hc.
    unfold no_deadline. rewrite expire_other by done. exact Hnd.
  - destruct (ttl_expiry k now s key) as [Heq|[_ Heq]];
      unfold no_deadline; rewrite Heq; [done | by right].
  - done.
  - destruct (cleanup_tick_wf now s Hwf) as (s' & -> & _ & Hout).
    destruct (Hout key (no_deadline_not_expired now s key Hnd)) as (_ & Heq & _).
    unfold no_deadline, state_of; cbn. by rewrite Heq.
Qed.

(** A key with a value and no finite deadline keeps a value through
    every step that is not [delete(key)], and keeps the same value
    through every step that is not [set(key, _)] either. *)
Lemma exec_keeps_value c s key value :
  wf s → no_deadline s key → is_delete_of key c = false →
  key_value_pairs s !! key = Some value →
  ∃ value', key_value_pairs (exec c s) !! key = Some value' ∧
            (is_set_of key c = false → value' = value).
Proof.
  intros Hwf Hnd Hc Hv.
  destruct c as [k v now|k|k|k seconds now|k now| |now]; cbn [exec is_set_of].
  - rewrite set_eq. unfold state_of; cbn.
    destruct (decide (k = key)) as [->|Hne].
    + exists v. rewrite lookup_insert_eq. split; [done|].
      intros H. apply bool_decide_eq_false in H. done.
    + exists value. by rewrite lookup_insert_ne.
  - by exists value.
  - cbn in Hc. apply bool_decide_eq_false in Hc.
    exists value. by rewrite delete_other.
  - exists value. by rewrite expire_values.
  - exists value. by rewrite ttl_values.
  - by exists value.
  - destruct (cleanup_tick_wf now s Hwf) as (s' & -> & _ & Hout).
    destruct (Hout key (no_deadline_not_expired now s key Hnd)) as (Heq & _ & _).
    exists value. unfold state_of; cbn. by rewrite Heq.
Qed.

Lemma run_app tr1 tr2 s : run (tr1 ++ tr2) s = run tr2 (run tr1 s).
Proof. apply foldl_app. Qed.

Lemma run_no_deadline tr : ∀ s key,
  reachable s →
  Forall (λ c, is_expire_of key c = false) tr →
  no_deadline s key → no_deadline (run tr s) key.
Proof.
  induction tr as [|c tr IH]; intros s key Hs Hall Hnd; [done|].
  apply Forall_cons in Hall as [Hc Hall]. cbn.
  apply IH; [by constructor | done |].
  apply exec_no_deadline; [by apply reachable_wf | done | done].
Qed.

Lemma run_keeps_value tr : ∀ s key value,
  reachable s →
  no_deadline s key →
  key_value_pairs s !! key = Some value →
  Forall (λ c, is_expire_of key c = false) tr →
  Forall (λ c, is_delete_of key c = false) tr →
  ∃ value', key_value_pairs (run tr s) !! key = Some value' ∧
            (Forall (λ c, is_set_of key c = false) tr → value' = value).
Proof.
  induction tr as [|c tr IH]; intros s key value Hs Hnd Hv Hex Hdel.
  - by exists value.
  - apply Forall_cons in Hex as [Hc Hex].
    apply Forall_cons in Hdel as [Hd Hdel]. cbn.
    pose proof (reachable_wf s Hs) as Hwf.
    destruct (exec_keeps_value c s key value Hwf Hnd Hd Hv) as (v1 & Hv1 & Hsame).
    destruct (IH (exec c s) key v1) as (v2 & Hv2 & Hsame2);
      [by constructor | by apply exec_no_deadline | done | done | done |].
    exists v2. split; [done|].
    intros [Hs1 Hs2]%Forall_cons. rewrite Hsame2, Hsame; done.
Qed.

End Frames.

(** ** Reads *)

Section Reads.
Implicit Types (s : Store) (key value : string) (now : Q).

Lemma keys_present key s :
  key ∈ (map_to_list (key_value_pairs s)).*1 ↔
  is_Some (key_value_pairs s !! key).
Proof.
  rewrite list_elem_of_fmap. split.
  - intros ([k v] & -> & Hin). apply elem_of_map_to_list in Hin. eauto.
  - intros [v Hv]. exists (key, v). split; [done|].
    by apply elem_of_map_to_list.
Qed.

(** C1, as the code has it.  The reads look at the dictionaries only: an
    entry that is still in [key_value_pairs] is returned by [get] and
    listed by [get_all_keys] whatever its deadline, and [ttl] reports 0
    for it once the deadline is at or before now; a key is absent to
    [get] (None), [ttl] (-2) and [get_all_keys] only when it is not in
    [key_value_pairs]. *)
Theorem reads_follow_the_map key now s :
  (∀ value, key_value_pairs s !! key = Some value →
     PyInMemStore.get key s = (s, Ok (Some value)) ∧
     (∃ keys, PyInMemStore.get_all_keys s = (s, Ok keys) ∧ key ∈ keys) ∧
     (∀ e, expiry s !! key = Some (Fin e) → (e <= now)%Q →
        PyInMemStore.ttl key now s = (s, Ok 0))) ∧
  (key_value_pairs s !! key = None →
     PyInMemStore.get key s = (s, Ok None) ∧
     (∃ keys, PyInMemStore.get_all_keys s = (s, Ok keys) ∧ key ∉ keys) ∧
     PyInMemStore.ttl key now s = (s, Ok (-2))).
Proof.
  split.
  - intros value Hv. split_and!.
    + by rewrite get_eq, Hv.
    + eexists. split; [apply get_all_keys_eq|].
      apply keys_present. eauto.
    + intros e He Hle. rewrite (ttl_finite key now s e) by eauto.
      pose proof (trunc_nonpos _ (minus_nonpos e now Hle)).
      do 3 f_equal. lia.
  - intros Hv. split_and!.
    + by rewrite get_eq, Hv.
    + eexists. split; [apply get_all_keys_eq|].
      rewrite keys_present, Hv. by intros [? ?].
    + by apply ttl_absent.
Qed.

Lemma reads_follow_the_map_witness :
  key_value_pairs two_keys !! "a" = Some "1" ∧
  expiry two_keys !! "a" = Some (Fin 101%Q) ∧
  (101 <= 200)%Q ∧
  PyInMemStore.get "a" two_keys = (two_keys, Ok (Some "1")) ∧
  PyInMemStore.ttl "a" 200%Q two_keys = (two_keys, Ok 0) ∧
  key_value_pairs two_keys !! "zz" = None ∧
  PyInMemStore.ttl "zz" 200%Q two_keys = (two_keys, Ok (-2)).
Proof.
  assert (key_value_pairs two_keys !! "a" = Some "1") as Hv by reflexivity.
  assert (expiry two_keys !! "a" = Some (Fin 101%Q)) as He by reflexivity.
  assert (101 <= 200)%Q as Hle by (unfold Qle; simpl; lia).
  assert (key_value_pairs two_keys !! "zz" = None) as Hz by reflexivity.
  destruct (reads_follow_the_map "a" 200%Q two_keys) as [Hpresent _].
  destruct (Hpresent "1" Hv) as (Hget & _ & Httl).
  destruct (reads_follow_the_map "zz" 200%Q two_keys) as [_ Habsent].
  destruct (Habsent Hz) as (_ & _ & Httl2).
  split_and!;
    [exact Hv | exact He | exact Hle | exact Hget | exact (Httl _ He Hle)
    | exact Hz | exact Httl2].
Defined.

(** C1, as stated, fails: at time 200 the deadline 101 of ["a"] has
    passed and no cleanup has run, yet [get] returns its value and
    [get_all_keys] lists it. *)
Lemma expired_entry_still_visible :
  reachable two_keys ∧
  expiry two_keys !! "a" = Some (Fin 101%Q) ∧
  (101 <= 200)%Q ∧
  result_of (PyInMemStore.get "a" two_keys) = Ok (Some "1") ∧
  result_of (PyInMemStore.get_all_keys two_keys) = Ok ["a"; "b"] ∧
  result_of (PyInMemStore.ttl "a" 200%Q two_keys) = Ok 0.
Proof.
  split_and!; try reflexivity.
  - apply reachable_run, reach_init.
  - unfold Qle; simpl; lia.
Qed.

End Reads.

(** ** Writes *)

Section Writes.
Implicit Types (s : Store) (key value : string) (now : Q) (seconds : Z).

(** C6.  [set] returns; afterwards the key holds the value and the
    creation time [now]; the deadlines are the ones of before, so [ttl]
    of a key that was present answers as before; every other key keeps
    its value and its creation time. *)
Theorem set_overwrites_value_only key value now s :
  ∃ s', PyInMemStore.set key value now s = (s', Ok tt) ∧
    key_value_pairs s' !! key = Some value ∧
    creation_times s' !! key = Some now ∧
    expiry s' = expiry s ∧
    (∀ now', is_Some (key_value_pairs s !! key) →
       result_of (PyInMemStore.ttl key now' s')
         = result_of (PyInMemStore.ttl key now' s)) ∧
    (∀ key', key' ≠ key →
       key_value_pairs s' !! key' = key_value_pairs s !! key' ∧
       creation_times s' !! key' = creation_times s !! key').
Proof.
  eexists. split; [apply set_eq|]. cbn. split_and!.
  - apply lookup_insert_eq.
  - apply lookup_insert_eq.
  - done.
  - intros now' Hp.
    set (s' := mkStore _ _ _).
    assert (is_Some (key_value_pairs s' !! key)) as Hp'
      by (subst s'; cbn; rewrite lookup_insert_eq; eauto).
    destruct (expiry s !! key) as [[e|]|] eqn:He.
    + by rewrite (ttl_finite key now' s' e), (ttl_finite key now' s e).
    + by rewrite (ttl_infinite key now' s'), (ttl_infinite key now' s).
    + by rewrite (ttl_default key now' s'), (ttl_default key now' s).
  - intros key' Hne. by rewrite !lookup_insert_ne.
Qed.

(** C8.  [get] right after [set] returns the value just written. *)
Theorem get_after_set key value now s :
  result_of (PyInMemStore.get key (state_of (PyInMemStore.set key value now s)))
    = Ok (Some value).
Proof.
  rewrite set_eq, get_eq. unfold result_of, state_of; cbn.
  by rewrite lookup_insert_eq.
Qed.



(** C9.  After [expire] with [seconds <= 0] on a present key, [ttl]
    returns 0 at every reading of the clock at or after the epoch. *)
Theorem ttl_after_nonpositive_expire key seconds now now' s :
  is_Some (key_value_pairs s !! key) →
  seconds ≤ 0 →
  clock now' →
  result_of
    (PyInMemStore.ttl key now' (state_of (PyInMemStore.expire key seconds now s)))
    = Ok 0.
Proof.
  intros Hp Hs Hclock. rewrite expire_nonpositive by done.
  unfold state_of; cbn [fst].
  erewrite ttl_finite; [|exact Hp|apply lookup_insert_eq].
  unfold result_of; cbn [snd]. f_equal.
  assert (Z.quot (Qnum (inject_Z (-1) - now')%Q) (QDen (inject_Z (-1) - now')%Q) ≤ 0)
    as Hle; [|lia].
  apply trunc_nonpos, minus_nonpos, Qlt_le_weak. by apply past_sentinel.
Qed.

Lemma ttl_after_nonpositive_expire_witness :
  result_of
    (PyInMemStore.ttl "k" 100%Q
       (state_of (PyInMemStore.expire "k" (-10) 100%Q fresh_store)))
    = Ok 0.
Proof.
  apply (ttl_after_nonpositive_expire "k" (-10) 100%Q 100%Q fresh_store).
  - exists "v". reflexivity.
  - lia.
  - unfold clock, Qle; simpl; lia.
Defined.

(** [delete] on a key with its three entries removes the three. *)
Lemma delete_complete key s :
  is_Some (key_value_pairs s !! key) →
  is_Some (expiry s !! key) →
  is_Some (creation_times s !! key) →
  PyInMemStore.delete key s =
    (mkStore (delete key (key_value_pairs s)) (delete key (expiry s))
             (delete key (creation_times s)), Ok tt).
Proof.
  intros Hv He Ht. rewrite delete_present by done. by apply del_entry_ok.
Qed.

(** [delete] on an absent key changes nothing, however often it is called. *)
Lemma delete_absent_idempotent key s :
  key_value_pairs s !! key = None →
  PyInMemStore.delete key s = (s, Ok tt) ∧
  PyInMemStore.delete key (state_of (PyInMemStore.delete key s)) = (s, Ok tt).
Proof.
  intros H. rewrite !delete_absent; by rewrite ?delete_absent.
Qed.

(** In a reachable store, [delete] on a present key that was never given
    a deadline (and never asked for its [ttl]) raises [KeyError] at
    [del self.expiry[key]]: the value is gone, the creation time stays. *)
Lemma delete_without_deadline key s :
  reachable s →
  is_Some (key_value_pairs s !! key) →
  expiry s !! key = None →
  PyInMemStore.delete key s =
    (mkStore (delete key (key_value_pairs s)) (expiry s) (creation_times s),
     Raise (KeyError key)) ∧
  is_Some (creation_times s !! key).
Proof.
  intros Hs Hp He. split; [by apply delete_no_deadline|].
  destruct (reachable_wf s Hs) as [_ Hvt].
  apply elem_of_dom, Hvt, elem_of_dom, Hp.
Qed.

(** C4, at ["k"] set and then deleted: [delete] raises [KeyError], and the
    creation time of ["k"] is still recorded. *)
Theorem delete_after_set_raises :
  PyInMemStore.delete "k" fresh_store =
    (mkStore ∅ ∅ {["k" := 100%Q]}, Raise (KeyError "k")) ∧
  creation_times (state_of (PyInMemStore.delete "k" fresh_store)) !! "k"
    = Some 100%Q.
Proof. split; reflexivity. Qed.

End Writes.

(** ** Exceptions *)

Section Faults.
Implicit Types (s : Store) (key : string) (now : Q) (c : call).

(** [ttl] on an absent key returns -2; on a key with a finite deadline it
    returns the whole seconds left, never less than 0. *)
Lemma ttl_contract key now s :
  (key_value_pairs s !! key = None →
     PyInMemStore.ttl key now s = (s, Ok (-2))) ∧
  (∀ e, is_Some (key_value_pairs s !! key) → expiry s !! key = Some (Fin e) →
     ∃ n, PyInMemStore.ttl key now s = (s, Ok n) ∧ 0 ≤ n ∧
          n = Z.max 0 (Z.quot (Qnum (e - now)%Q) (QDen (e - now)%Q))).
Proof.
  split; [apply ttl_absent|].
  intros e Hp He. eexists. split; [by apply ttl_finite|]. lia.
Qed.

(** [ttl] on a present key with no finite deadline raises [OverflowError]
    at [int(remaining_time)]. *)
Lemma ttl_no_deadline_raises key now s :
  is_Some (key_value_pairs s !! key) →
  no_deadline s key →
  result_of (PyInMemStore.ttl key now s) = Raise OverflowError.
Proof.
  intros Hp [He|He].
  - by rewrite ttl_default.
  - by rewrite ttl_infinite.
Qed.

(** C2, at ["k"] set and never given a deadline: [ttl] raises
    [OverflowError] where the contract says -1, and leaves the default
    deadline recorded for the key. *)
Theorem ttl_after_set_raises :
  PyInMemStore.ttl "k" 100%Q fresh_store =
    (mkStore {["k" := "v"]} {["k" := PInf]} {["k" := 100%Q]},
     Raise OverflowError).
Proof. reflexivity. Qed.


(** C3, at ["k"] set and never given a deadline: [ttl] raises
    [OverflowError] and [delete] raises [KeyError]. *)
Theorem public_calls_raise :
  reachable fresh_store ∧
  fault (CTtl "k" 100%Q) fresh_store = Some OverflowError ∧
  fault (CDelete "k") fresh_store = Some (KeyError "k").
Proof.
  split_and!; [apply reachable_run, reach_init | reflexivity | reflexivity].
Qed.

End Faults.

(** ** The background cleanup *)

Section Sweeper.
Implicit Types (s : Store) (key value : string) (now : Q) (tr : list call).

(** C7.  In a reachable store one iteration of the cleanup loop returns;
    it removes the three entries of every key whose recorded deadline is
    strictly before [now], and leaves every other key's entries as they
    were. *)
Theorem cleanup_tick_removes_exactly_expired now s :
  reachable s →
  ∃ s', PyInMemStore.cleanup_tick now s = (s', Ok tt) ∧
    (∀ key, expired_at now s key →
       key_value_pairs s' !! key = None ∧ expiry s' !! key = None ∧
       creation_times s' !! key = None) ∧
    (∀ key, ¬ expired_at now s key →
       key_value_pairs s' !! key = key_value_pairs s !! key ∧
       expiry s' !! key = expiry s !! key ∧
       creation_times s' !! key = creation_times s !! key).
Proof. intros Hs. by apply cleanup_tick_wf, reachable_wf. Qed.

Lemma cleanup_tick_removes_exactly_expired_witness :
  reachable two_keys ∧
  ∃ s', PyInMemStore.cleanup_tick 200%Q two_keys = (s', Ok tt) ∧
    (∀ key, expired_at 200%Q two_keys key →
       key_value_pairs s' !! key = None ∧ expiry s' !! key = None ∧
       creation_times s' !! key = None) ∧
    (∀ key, ¬ expired_at 200%Q two_keys key →
       key_value_pairs s' !! key = key_value_pairs two_keys !! key ∧
       expiry s' !! key = expiry two_keys !! key ∧
       creation_times s' !! key = creation_times two_keys !! key).
Proof.
  assert (reachable two_keys) as Hs by apply reachable_run, reach_init.
  split; [exact Hs|].
  exact (cleanup_tick_removes_exactly_expired 200%Q two_keys Hs).
Defined.

(** C10.  In a history from the empty store in which [key] is never
    passed to [expire], once [key] has been set it has a value after
    every later step, cleanup iterations included, as long as it is not
    passed to [delete]; the value is the one set, if it was not set
    again. *)
Theorem key_without_expire_survives key value now tr1 tr2 :
  Forall (λ c, is_expire_of key c = false) (tr1 ++ tr2) →
  Forall (λ c, is_delete_of key c = false) tr2 →
  ∃ value',
    key_value_pairs (run (tr1 ++ CSet key value now :: tr2) init) !! key
      = Some value' ∧
    (Forall (λ c, is_set_of key c = false) tr2 → value' = value).
Proof.
  intros [Hex1 Hex2]%Forall_app Hdel.
  rewrite run_app. cbn [run foldl]. fold (run tr2).
  set (s1 := run tr1 init).
  assert (reachable s1) as Hs1 by apply reachable_run, reach_init.
  assert (no_deadline s1 key) as Hnd1.
  { apply run_no_deadline; [apply reach_init | done | by left]. }
  apply run_keeps_value; [by constructor | | | done | done].
  - by apply exec_no_deadline; [apply reachable_wf| |].
  - cbn [exec]. rewrite set_eq. unfold state_of; cbn. apply lookup_insert_eq.
Qed.

Lemma key_without_expire_survives_witness :
  key_value_pairs
    (run ([CSet "a" "1" 100%Q; CExpire "a" (-1) 100%Q] ++
          CSet "k" "v" 100%Q ::
          [CTick 200%Q; CTtl "k" 300%Q; CTick 400%Q; CGet "k"]) init) !! "k"
    = Some "v".
Proof.
  destruct (key_without_expire_survives "k" "v" 100%Q
              [CSet "a" "1" 100%Q; CExpire "a" (-1) 100%Q]
              [CTick 200%Q; CTtl "k" 300%Q; CTick 400%Q; CGet "k"])
    as (value' & Hv & Hsame).
  - repeat constructor.
  - repeat constructor.
  - rewrite Hv. f_equal. apply Hsame. repeat constructor.
Defined.

End Sweeper.

(** ** Further properties of the store *)

Section StoreInvariant.
Implicit Types (s : Store) (key : string) (now : Q) (c : call).

(** Every reachable store keeps its three dictionaries nested: a key with
    a deadline has a value, and a key with a value has a creation time. *)
Theorem reachable_store_invariant s key :
  reachable s →
  (is_Some (expiry s !! key) → is_Some (key_value_pairs s !! key)) ∧
  (is_Some (key_value_pairs s !! key) → is_Some (creation_times s !! key)).
Proof.
  intros [Hev Hvt]%reachable_wf. split; intros H%elem_of_dom; apply elem_of_dom.
  - by apply Hev.
  - by apply Hvt.
Qed.

Lemma reachable_store_invariant_witness :
  reachable two_keys ∧
  (is_Some (expiry two_keys !! "a") → is_Some (key_value_pairs two_keys !! "a")) ∧
  (is_Some (key_value_pairs two_keys !! "a") →
   is_Some (creation_times two_keys !! "a")).
Proof.
  assert (reachable two_keys) as Hs by apply reachable_run, reach_init.
  split; [exact Hs|]. exact (reachable_store_invariant two_keys "a" Hs).
Defined.


Lemma store_eq s1 s2 :
  (∀ key, key_value_pairs s1 !! key = key_value_pairs s2 !! key) →
  (∀ key, expiry s1 !! key = expiry s2 !! key) →
  (∀ key, creation_times s1 !! key = creation_times s2 !! key) →
  s1 = s2.
Proof.
  destruct s1, s2; cbn. intros Hv He Ht.
  f_equal; by apply map_eq.
Qed.

Lemma loop_cons now clocks s :
  _cleanup_expired_keys (now :: clocks) s =
    match PyInMemStore.cleanup_tick now s with
    | (s', Ok _) => _cleanup_expired_keys clocks s'
    | (s', Raise e) => (s', Raise e)
    end.
Proof. reflexivity. Qed.

(** Started in a reachable store and left alone, the cleanup loop never
    ends with an exception: every iteration returns, and the store after
    the iterations is the one the history of these iterations gives. *)
Theorem cleanup_loop_keeps_running clocks : ∀ s,
  reachable s →
  _cleanup_expired_keys clocks s = (run (CTick <$> clocks) s, Ok tt).
Proof.
  induction clocks as [|now clocks IH]; intros s Hs; [done|].
  rewrite loop_cons. cbn [fmap list_fmap run foldl exec].
  destruct (cleanup_tick_wf now s (reachable_wf s Hs)) as (s' & Htick & _).
  assert (reachable s') as Hs'.
  { replace s' with (exec (CTick now) s) by (cbn [exec]; by rewrite Htick).
    by constructor. }
  rewrite Htick. unfold state_of; cbn [fst]. by apply IH.
Qed.

Lemma cleanup_loop_keeps_running_witness :
  _cleanup_expired_keys [150%Q; 200%Q; 250%Q] two_keys =
    (run [CTick 150%Q; CTick 200%Q; CTick 250%Q] two_keys, Ok tt).
Proof.
  apply (cleanup_loop_keeps_running [150%Q; 200%Q; 250%Q] two_keys).
  apply reachable_run, reach_init.
Defined.

(** Two iterations of the cleanup loop in a row, the second at a clock
    reading that is not earlier, leave the store a single iteration at the
    second reading leaves; in particular an iteration repeated at the same
    reading changes nothing. *)
Theorem cleanup_ticks_compose now1 now2 s :
  reachable s →
  (now1 <= now2)%Q →
  exec (CTick now2) (exec (CTick now1) s) = exec (CTick now2) s.
Proof.
  intros Hs Hle. cbn [exec].
  destruct (cleanup_tick_wf now1 s (reachable_wf s Hs)) as (s1 & H1 & Hin1 & Hout1).
  assert (reachable s1) as Hs1.
  { replace s1 with (exec (CTick now1) s) by (cbn [exec]; by rewrite H1).
    by constructor. }
  destruct (cleanup_tick_wf now2 s1 (reachable_wf s1 Hs1)) as (s2 & H2 & Hin2 & Hout2).
  destruct (cleanup_tick_wf now2 s (reachable_wf s Hs)) as (s3 & H3 & Hin3 & Hout3).
  rewrite H1; unfold state_of; cbn [fst]. rewrite H2, H3; cbn [fst].
  assert (∀ key,
    key_value_pairs s2 !! key = key_value_pairs s3 !! key ∧
    expiry s2 !! key = expiry s3 !! key ∧
    creation_times s2 !! key = creation_times s3 !! key) as Hall.
  { intros key. destruct (expired_at_dec now2 s key) as [Hx2|Hx2].
    - destruct (Hin3 key Hx2) as (-> & -> & ->).
      destruct (expired_at_dec now1 s key) as [Hx1|Hx1].
      + destruct (Hin1 key Hx1) as (Hv & He & Ht).
        assert (¬ expired_at now2 s1 key) as Hn
          by (intros (e & He' & _); congruence).
        destruct (Hout2 key Hn) as (-> & -> & ->). done.
      + destruct (Hout1 key Hx1) as (Hv & He & Ht).
        assert (expired_at now2 s1 key) as Hy
          by (destruct Hx2 as (e & He' & Hlt); exists e; by rewrite He).
        exact (Hin2 key Hy).
    - destruct (Hout3 key Hx2) as (-> & -> & ->).
      assert (¬ expired_at now1 s key) as Hx1.
      { intros (e & He & Hlt). apply Hx2. exists e. split; [done|].
        eapply Qlt_le_trans; eauto. }
      destruct (Hout1 key Hx1) as (Hv & He & Ht).
      assert (¬ expired_at now2 s1 key) as Hn.
      { intros (e & He' & Hlt). apply Hx2. exists e. by rewrite <- He. }
      destruct (Hout2 key Hn) as (-> & -> & ->). done. }
  apply store_eq; intros key; by destruct (Hall key) as (? & ? & ?).
Qed.

Lemma cleanup_ticks_compose_witness :
  exec (CTick 200%Q) (exec (CTick 50%Q) two_keys) = exec (CTick 200%Q) two_keys.
Proof.
  apply (cleanup_ticks_compose 50%Q 200%Q two_keys).
  - apply reachable_run, reach_init.
  - unfold Qle; simpl; lia.
Defined.

End StoreInvariant.

Section Deleting.
Implicit Types (s : Store) (key value : string) (now : Q).

Lemma del_entry_removes_value key s :
  key_value_pairs (state_of (PyInMemStore.del_entry key s)) !! key = None.
Proof.
  unfold PyInMemStore.del_entry, mbind, M_bind, Dict.kv_delitem,
    Dict.expiry_delitem, Dict.ct_delitem, state_of.
  destruct (key_value_pairs s !! key) eqn:Hv; cbn; [|done].
  destruct (expiry s !! key); cbn.
  - destruct (creation_times s !! key); cbn; apply lookup_delete_eq.
  - apply lookup_delete_eq.
Qed.

(** Whatever the store and whether [delete] returns or raises, the key
    has no value afterwards: [get] returns None, [ttl] returns -2 and
    [get_all_keys] does not list it. *)
Theorem delete_always_hides_key key now s :
  ∃ s', state_of (PyInMemStore.delete key s) = s' ∧
    PyInMemStore.get key s' = (s', Ok None) ∧
    PyInMemStore.ttl key now s' = (s', Ok (-2)) ∧
    ∃ keys, PyInMemStore.get_all_keys s' = (s', Ok keys) ∧ key ∉ keys.
Proof.
  eexists. split; [done|].
  assert (key_value_pairs (state_of (PyInMemStore.delete key s)) !! key = None)
    as Hnone.
  { destruct (key_value_pairs s !! key) eqn:Hv.
    - rewrite delete_present by eauto. apply del_entry_removes_value.
    - by rewrite delete_absent. }
  split_and!.
  - by rewrite get_eq, Hnone.
  - by apply ttl_absent.
  - eexists. split; [apply get_all_keys_eq|].
    rewrite keys_present, Hnone. by intros [? ?].
Qed.

(** In a reachable store, [delete] on a key that has an entry in
    [expiry] returns, removes the key's value, deadline and creation
    time, and leaves the entries of every other key as they were. *)
Theorem delete_with_deadline_succeeds key s :
  reachable s →
  is_Some (expiry s !! key) →
  ∃ s', PyInMemStore.delete key s = (s', Ok tt) ∧
    key_value_pairs s' !! key = None ∧ expiry s' !! key = None ∧
    creation_times s' !! key = None ∧
    ∀ key', key' ≠ key →
      key_value_pairs s' !! key' = key_value_pairs s !! key' ∧
      expiry s' !! key' = expiry s !! key' ∧
      creation_times s' !! key' = creation_times s !! key'.
Proof.
  intros Hs He. destruct (reachable_wf s Hs) as [Hev Hvt].
  assert (is_Some (key_value_pairs s !! key)) as Hv
    by (apply elem_of_dom, Hev, elem_of_dom, He).
  assert (is_Some (creation_times s !! key)) as Ht
    by (apply elem_of_dom, Hvt, elem_of_dom, Hv).
  eexists. split; [by apply delete_complete|]. cbn.
  rewrite !lookup_delete_eq. split_and!; try done.
  intros key' Hne. by rewrite !lookup_delete_ne.
Qed.

Lemma delete_with_deadline_succeeds_witness :
  ∃ s', PyInMemStore.delete "a" two_keys = (s', Ok tt) ∧
    key_value_pairs s' !! "a" = None ∧ expiry s' !! "a" = None ∧
    creation_times s' !! "a" = None ∧
    ∀ key', key' ≠ "a" →
      key_value_pairs s' !! key' = key_value_pairs two_keys !! key' ∧
      expiry s' !! key' = expiry two_keys !! key' ∧
      creation_times s' !! key' = creation_times two_keys !! key'.
Proof.
  apply (delete_with_deadline_succeeds "a" two_keys).
  - apply reachable_run, reach_init.
  - exists (Fin 101%Q). reflexivity.
Defined.

(** [ttl] is not a pure read: on a present key without a deadline it
    raises, but it has recorded the default deadline, so that in a
    reachable store a [delete] of a present key that follows a [ttl] of
    that key returns and removes the key's three entries. *)
Theorem delete_after_ttl_succeeds key now s :
  reachable s →
  is_Some (key_value_pairs s !! key) →
  ∃ s', PyInMemStore.delete key (state_of (PyInMemStore.ttl key now s))
          = (s', Ok tt) ∧
    key_value_pairs s' !! key = None ∧ expiry s' !! key = None ∧
    creation_times s' !! key = None.
Proof.
  intros Hs Hv.
  assert (reachable (state_of (PyInMemStore.ttl key now s))) as Hs'
    by apply (reach_step (CTtl key now) s Hs).
  assert (is_Some (expiry (state_of (PyInMemStore.ttl key now s)) !! key)) as He.
  { destruct (expiry s !! key) as [[e|]|] eqn:He.
    - erewrite ttl_finite by eauto. cbn. eauto.
    - rewrite ttl_infinite by eauto. cbn. eauto.
    - rewrite ttl_default by eauto. unfold state_of; cbn.
      rewrite lookup_insert_eq. eauto. }
  assert (is_Some (key_value_pairs (state_of (PyInMemStore.ttl key now s)) !! key))
    as Hv' by (by rewrite ttl_values).
  assert (is_Some (creation_times (state_of (PyInMemStore.ttl key now s)) !! key))
    as Ht.
  { destruct (reachable_wf _ Hs') as [_ Hvt].
    by apply elem_of_dom, Hvt, elem_of_dom. }
  eexists. split; [by apply delete_complete|].
  cbn. by rewrite !lookup_delete_eq.
Qed.

Lemma delete_after_ttl_succeeds_witness :
  ∃ s', PyInMemStore.delete "k" (state_of (PyInMemStore.ttl "k" 100%Q fresh_store))
          = (s', Ok tt) ∧
    key_value_pairs s' !! "k" = None ∧ expiry s' !! "k" = None ∧
    creation_times s' !! "k" = None.
Proof.
  apply (delete_after_ttl_succeeds "k" 100%Q fresh_store).
  - apply reachable_run, reach_init.
  - exists "v". reflexivity.
Defined.

(** [get_all_keys] leaves the store as it is and lists each key that has
    a value exactly once, and nothing else. *)
Theorem get_all_keys_exact s :
  ∃ keys, PyInMemStore.get_all_keys s = (s, Ok keys) ∧
    NoDup keys ∧
    length keys = size (key_value_pairs s) ∧
    ∀ key, key ∈ keys ↔ is_Some (key_value_pairs s !! key).
Proof.
  eexists. split; [apply get_all_keys_eq|]. split_and!.
  - apply NoDup_fst_map_to_list.
  - by rewrite length_fmap, length_map_to_list.
  - intros key. apply keys_present.
Qed.

End Deleting.

Section Deadlines.
Implicit Types (s : Store) (key value : string) (now : Q) (seconds : Z).

(** What [max(0, int(x))] returns is the floor of [x], cut off at 0. *)
Lemma max_trunc_floor (q : Q) :
  Z.max 0 (Z.quot (Qnum q) (QDen q)) = Z.max 0 (Qfloor q).
Proof.
  destruct q as [n d]. cbn [Qnum Qden Qfloor].
  destruct (Z_lt_le_dec n 0) as [Hneg|Hpos].
  - pose proof (quot_nonpos n (Z.pos d) ltac:(lia) ltac:(lia)).
    pose proof (Z.div_lt_upper_bound n (Z.pos d) 0 ltac:(lia) ltac:(lia)).
    lia.
  - by rewrite Z.quot_div_nonneg by lia.
Qed.




(** For a present key with a finite deadline, [ttl] returns, leaves the
    store as it is, and never grows as the clock advances. *)
Theorem ttl_never_grows key e now1 now2 s :
  is_Some (key_value_pairs s !! key) →
  expiry s !! key = Some (Fin e) →
  (now1 <= now2)%Q →
  ∃ r1 r2,
    PyInMemStore.ttl key now1 s = (s, Ok r1) ∧
    PyInMemStore.ttl key now2 s = (s, Ok r2) ∧
    0 ≤ r2 ≤ r1.
Proof.
  intros Hv He Hle. do 2 eexists.
  split; [by apply ttl_finite|]. split; [by apply ttl_finite|].
  rewrite !max_trunc_floor.
  assert (Qfloor (e - now2) ≤ Qfloor (e - now1)); [|lia].
  apply Qfloor_resp_le. lra.
Qed.

Lemma ttl_never_grows_witness :
  ∃ r1 r2,
    PyInMemStore.ttl "a" 95%Q two_keys = (two_keys, Ok r1) ∧
    PyInMemStore.ttl "a" 100%Q two_keys = (two_keys, Ok r2) ∧
    0 ≤ r2 ≤ r1.
Proof.
  apply (ttl_never_grows "a" 101%Q 95%Q 100%Q two_keys).
  - exists "1". reflexivity.
  - reflexivity.
  - unfold Qle; simpl; lia.
Defined.


(** [set] does not clear a deadline: in a reachable store, a key whose
    deadline has passed and that is overwritten by [set] is still removed,
    new value included, by the next iteration of the cleanup loop. *)
Theorem overwritten_expired_key_is_swept key value now now' s :
  reachable s →
  expired_at now' s key →
  result_of
    (PyInMemStore.get key
       (exec (CTick now') (exec (CSet key value now) s))) = Ok None.
Proof.
  intros Hs Hexp.
  assert (reachable (exec (CSet key value now) s)) as Hs1 by by constructor.
  assert (expired_at now' (exec (CSet key value now) s) key) as Hexp1 by done.
  cbn [exec] in *.
  destruct (cleanup_tick_wf now' _ (reachable_wf _ Hs1)) as (s2 & -> & Hin & _).
  destruct (Hin key Hexp1) as (Hnone & _).
  rewrite get_eq. unfold result_of, state_of; cbn. by rewrite Hnone.
Qed.

Lemma overwritten_expired_key_is_swept_witness :
  result_of
    (PyInMemStore.get "a"
       (exec (CTick 200%Q) (exec (CSet "a" "new" 150%Q) two_keys))) = Ok None.
Proof.
  apply (overwritten_expired_key_is_swept "a" "new" 150%Q 200%Q two_keys).
  - apply reachable_run, reach_init.
  - exists 101%Q. split; [reflexivity | unfold Qlt; simpl; lia].
Defined.

(** After [expire] with [seconds <= 0] on a present key of a reachable
    store, one iteration of the cleanup loop, at any clock reading at or
    after the epoch, removes the key: [get] returns None, [ttl] returns
    -2 and [get_all_keys] does not list it. *)
Theorem nonpositive_expire_then_tick_removes key seconds now now' now'' s :
  reachable s →
  is_Some (key_value_pairs s !! key) →
  seconds ≤ 0 →
  clock now' →
  ∃ s', exec (CTick now') (exec (CExpire key seconds now) s) = s' ∧
    PyInMemStore.get key s' = (s', Ok None) ∧
    PyInMemStore.ttl key now'' s' = (s', Ok (-2)) ∧
    ∃ keys, PyInMemStore.get_all_keys s' = (s', Ok keys) ∧ key ∉ keys.
Proof.
  intros Hs Hv Hsec Hclock. eexists. split; [reflexivity|].
  assert (reachable (exec (CExpire key seconds now) s)) as Hs1 by by constructor.
  assert (expired_at now' (exec (CExpire key seconds now) s) key) as Hexp.
  { cbn [exec]. rewrite expire_nonpositive by done.
    exists (inject_Z (-1)). split; [apply lookup_insert_eq|].
    by apply past_sentinel. }
  cbn [exec] in *.
  destruct (cleanup_tick_wf now' _ (reachable_wf _ Hs1)) as (s2 & -> & Hin & _).
  destruct (Hin key Hexp) as (Hnone & _). unfold state_of; cbn [fst].
  split_and!.
  - by rewrite get_eq, Hnone.
  - by apply ttl_absent.
  - eexists. split; [apply get_all_keys_eq|].
    rewrite keys_present, Hnone. by intros [? ?].
Qed.

Lemma nonpositive_expire_then_tick_removes_witness :
  ∃ s', exec (CTick 100%Q) (exec (CExpire "k" 0 100%Q) fresh_store) = s' ∧
    PyInMemStore.get "k" s' = (s', Ok None) ∧
    PyInMemStore.ttl "k" 100%Q s' = (s', Ok (-2)) ∧
    ∃ keys, PyInMemStore.get_all_keys s' = (s', Ok keys) ∧ "k" ∉ keys.
Proof.
  apply (nonpositive_expire_then_tick_removes "k" 0 100%Q 100%Q 100%Q fresh_store).
  - apply reachable_run, reach_init.
  - exists "v". reflexivity.
  - lia.
  - unfold clock, Qle; simpl; lia.
Defined.



(** A deadline does not outlive its entry: in a reachable store, a key
    that the cleanup loop has removed and that is then set again has no
    entry in [expiry]. *)
Theorem swept_key_set_again_has_no_deadline key value now now' s :
  reachable s →
  expired_at now s key →
  let s' := exec (CSet key value now') (exec (CTick now) s) in
  key_value_pairs s' !! key = Some value ∧ expiry s' !! key = None.
Proof.
  intros Hs Hexp s'. subst s'. cbn [exec].
  destruct (cleanup_tick_wf now s (reachable_wf _ Hs)) as (s1 & -> & Hin & _).
  destruct (Hin key Hexp) as (_ & Hnone & _).
  unfold state_of at 2; cbn [fst]. rewrite set_eq. unfold state_of; cbn.
  by rewrite lookup_insert_eq.
Qed.

Lemma swept_key_set_again_has_no_deadline_witness :
  let s' := exec (CSet "a" "new" 300%Q) (exec (CTick 200%Q) two_keys) in
  key_value_pairs s' !! "a" = Some "new" ∧ expiry s' !! "a" = None.
Proof.
  apply (swept_key_set_again_has_no_deadline "a" "new" 200%Q 300%Q two_keys).
  - apply reachable_run, reach_init.
  - exists 101%Q. split; [reflexivity | unfold Qlt; simpl; lia].
Defined.

End Deadlines.
